(** * multierr: combining several Go errors into one

    A shallow embedding of [multierr.go] (package [multierr]) together with
    the part of Go's [errors], [fmt] and [strings] packages that the file
    calls, followed by the properties of [Append], [ForEach], [Len], [All],
    the composite's [Is]/[As]/[Error] methods and [DefaultFormatMessage]. *)

From Stdlib Require Import List String Ascii Bool ZArith Lia.
From Stdlib Require Import Numbers.DecimalString.
Import ListNotations.

Local Open Scope string_scope.
#[local] Set Warnings "-register-all".
Local Open Scope list_scope.

(** ** Go values *)

(** The dynamic type of a present error that is not a composite: its name,
    and whether its values can be compared with [==].  Pointer types and
    structs of comparable fields can; slice, map and function types, and
    structs that hold them, cannot. *)
Record dyntype : Type := {
  type_name : string;
  type_comparable : bool
}.

(** A comparable type, such as the pointer types [*errors.errorString] and
    [*fmt.wrapError] of the values that [errors.New] and [fmt.Errorf]
    return.  A type written by its name alone is comparable. *)
Definition comparable_type (name : string) : dyntype :=
  {| type_name := name; type_comparable := true |}.
Coercion comparable_type : string >-> dyntype.

(** A value of the interface type [error].

    - [nil_error] is the nil interface value;
    - [multi m] is a value of the package's slice type [multi []error]; its
      elements are again arbitrary interface values, so a composite may hold
      nil or another composite (nothing in the type forbids it);
    - [other typ addr msg cause] is any other present error: a value of the
      dynamic type [typ] whose [Error()] returns [msg] and whose [Unwrap()]
      returns [cause] ([nil_error] when the type has no [Unwrap] method or
      it returns nil).  For a comparable type, [addr] tells the values
      apart that [==] tells apart: it is the address for a pointer type,
      as of the values that [errors.New] and [fmt.Errorf] return. *)
Inductive error : Type :=
| nil_error
| other (typ : dyntype) (addr : nat) (msg : string) (cause : error)
| multi (m : list error).

(** Induction principle that reaches the elements of a composite. *)
Fixpoint error_rect' (P : error -> Type) (Q : list error -> Type)
    (Hnil : P nil_error)
    (Hother : forall typ addr msg cause, P cause -> P (other typ addr msg cause))
    (Hmulti : forall m, Q m -> P (multi m))
    (Hempty : Q [])
    (Hcons : forall e m, P e -> Q m -> Q (e :: m))
    (e : error) {struct e} : P e :=
  match e with
  | nil_error => Hnil
  | other typ addr msg cause =>
      Hother typ addr msg cause
        (error_rect' P Q Hnil Hother Hmulti Hempty Hcons cause)
  | multi m =>
      Hmulti m
        ((fix elems (l : list error) : Q l :=
            match l with
            | [] => Hempty
            | x :: l' =>
                Hcons x l'
                  (error_rect' P Q Hnil Hother Hmulti Hempty Hcons x)
                  (elems l')
            end) m)
  end.

Lemma error_ind' (P : error -> Prop) :
  P nil_error ->
  (forall typ addr msg cause, P cause -> P (other typ addr msg cause)) ->
  (forall m, Forall P m -> P (multi m)) ->
  forall e, P e.
Proof.
  intros Hnil Hother Hmulti.
  apply (error_rect' P (Forall P)); auto.
Qed.

(** [err == nil] *)
Definition is_nil (err : error) : bool :=
  match err with nil_error => true | _ => false end.

(** The type assertion [err.(multi)]: the slice and [ok]. *)
Definition as_multi (err : error) : option (list error) :=
  match err with multi m => Some m | _ => None end.

Definition is_multi (err : error) : bool :=
  match err with multi _ => true | _ => false end.

(** Outcome of a call that may panic. *)
Inductive result (A : Type) : Type :=
| Ok (a : A)
| Panic (v : string).
Arguments Ok {A} a.
Arguments Panic {A} v.

Definition bind {A B : Type} (r : result A) (k : A -> result B) : result B :=
  match r with
  | Ok a => k a
  | Panic v => Panic v
  end.

Notation "x <- r ;; k" := (bind r (fun x => k))
  (at level 61, r at next level, right associativity).

(** ** Append

    Slices are modelled by their element sequences: [append(md, ms...)] is
    [md ++ ms].  Whether the result shares its backing array with [md] is
    not represented. *)
Definition Append (dest err : error) : error :=
  if is_nil err then dest
  else if is_nil dest then err
  else
    match as_multi dest with
    | Some md =>
        match as_multi err with
        | Some ms => multi (md ++ ms)
        | None => multi (md ++ [err])
        end
    | None =>
        match as_multi err with
        | Some ms => multi ([dest] ++ ms)
        | None => multi [dest; err]
        end
    end.

(** ** ForEach, Len, All

    The callback [f] acts on the caller's state [S]; [ForEach] threads that
    state through the calls in the order it makes them and returns once the
    last call has returned. *)
Section Traversal.
Context {S : Type}.

(** [for _, err := range m { f(err) }] *)
Fixpoint range (m : list error) (f : error -> S -> S) (s : S) : S :=
  match m with
  | [] => s
  | err :: rest => range rest f (f err s)
  end.

Definition ForEach (err : error) (f : error -> S -> S) (s : S) : S :=
  if is_nil err then s
  else
    match as_multi err with
    | Some m => range m f s
    | None => f err s
    end.

End Traversal.

(** [len] of a slice fits Go's [int]; no arithmetic is done on it. *)
Definition len {A : Type} (l : list A) : Z := Z.of_nat (List.length l).

Definition Len (err : error) : Z :=
  if is_nil err then 0%Z
  else
    match as_multi err with
    | Some m => len m
    | None => 1%Z
    end.

Definition All (err : error) : list error :=
  ForEach err (fun err errs => errs ++ [err]) [].

(** ** The composite's [Is] and [As] methods

    [errors.Is] and [errors.As] belong to Go's standard library; the methods
    are written against them as parameters and the library's functions are
    defined below.  A call of either may have effects, which are threaded
    through a state [St]: for [As], whose [target] is a non-nil pointer to a
    variable of some type [T], the pointer is represented by [T] and the
    state holds the content of the variable. *)
Inductive gotype : Type :=
| type_error                    (* the interface type error *)
| type_multi                    (* multierr.multi *)
| type_named (name : string).   (* any other concrete error type *)

Section Methods.
Context {St : Type}.
Variable errors_As : error -> gotype -> St -> bool * St.
Variable errors_Is : error -> error -> St -> bool * St.

Fixpoint multi_As (m : list error) (target : gotype) (st : St) : bool * St :=
  match m with
  | [] => (false, st)
  | err :: rest =>
      let (ok, st') := errors_As err target st in
      if ok then (true, st') else multi_As rest target st'
  end.

Fixpoint multi_Is (m : list error) (target : error) (st : St) : bool * St :=
  match m with
  | [] => (false, st)
  | err :: rest =>
      let (ok, st') := errors_Is err target st in
      if ok then (true, st') else multi_Is rest target st'
  end.
End Methods.

(** A function without effects, as a call that leaves the state alone. *)
Definition pure2 {A B St : Type} (h : A -> B -> bool)
  : A -> B -> St -> bool * St :=
  fun a b st => (h a b, st).

(** Go's [errors] package, for the values of [error]: [other] values have
    neither an [Is] nor an [As] method, and their type says whether they
    are comparable; [multi] is a slice type (not comparable), has both
    methods and no [Unwrap]. *)
Module errors.

(** The dynamic type of a present error (never asked of nil). *)
Definition TypeOf (err : error) : gotype :=
  match err with
  | nil_error => type_error
  | other typ _ _ _ => type_named (type_name typ)
  | multi _ => type_multi
  end.

(** [reflectlite.TypeOf(err).Comparable()] (never asked of nil). *)
Definition Comparable (err : error) : bool :=
  match err with
  | nil_error => true
  | other typ _ _ _ => type_comparable typ
  | multi _ => false
  end.

Definition dyntype_eqb (t1 t2 : dyntype) : bool :=
  String.eqb (type_name t1) (type_name t2)
  && Bool.eqb (type_comparable t1) (type_comparable t2).

(** [a == b] on interface values where it does not panic: both nil, or the
    same dynamic type and the same value.  [errors.Is] evaluates it only
    when the type of [b] is comparable, so never on two values of one
    type that is not. *)
Definition equal (a b : error) : bool :=
  match a, b with
  | nil_error, nil_error => true
  | other t1 p1 _ _, other t2 p2 _ _ => dyntype_eqb t1 t2 && Nat.eqb p1 p2
  | _, _ => false
  end.

Definition gotype_eqb (a b : gotype) : bool :=
  match a, b with
  | type_error, type_error => true
  | type_multi, type_multi => true
  | type_named x, type_named y => String.eqb x y
  | _, _ => false
  end.

Definition AssignableTo (t T : gotype) : bool :=
  match T with
  | type_error => true
  | _ => gotype_eqb t T
  end.

(** [Is], given the loop [is] it calls (named [is'] here).  Both are free
    of effects on the values of [error]. *)
Definition Is_of (is' : error -> error -> bool -> bool) (err target : error)
  : bool :=
  if is_nil err || is_nil target then equal err target
  else is' err target (Comparable target).

Fixpoint is' (err target : error) (targetComparable : bool) {struct err}
  : bool :=
  match err with
  | nil_error => false
  | other _ _ _ cause =>
      if targetComparable && equal err target then true
      else is' cause target targetComparable
  | multi m =>
      if targetComparable && equal err target then true
      else if fst (multi_Is (pure2 (Is_of is')) m target tt) then true
      else false
  end.

Definition Is : error -> error -> bool := Is_of is'.

Fixpoint As (err : error) (T : gotype) (slot : error) {struct err}
  : bool * error :=
  match err with
  | nil_error => (false, slot)
  | other _ _ _ cause =>
      if AssignableTo (TypeOf err) T then (true, err)
      else As cause T slot
  | multi m =>
      if AssignableTo (TypeOf err) T then (true, err)
      else multi_As As m T slot
  end.

End errors.

(** ** Rendering *)

Definition nl : string := String "010"%char "".
Definition tab : string := String "009"%char "".

(** The verb [%d] of [fmt] on an [int]. *)
Definition itoa (n : Z) : string := NilEmpty.string_of_int (Z.to_int n).

(** [strings.ReplaceAll(s, old, new)] for a non-empty [old]: the matches of
    [old] are found from left to right and do not overlap.  [skip] counts
    the bytes of the match in progress that remain to be dropped.  (For an
    empty [old] Go inserts [new] around every rune; the package never passes
    one and that case is left as the identity.) *)
Fixpoint replace_from (old new : string) (skip : nat) (s : string) : string :=
  match s with
  | EmptyString => EmptyString
  | String c s' =>
      match skip with
      | S k => replace_from old new k s'
      | O =>
          if prefix old s
          then (new ++ replace_from old new (String.length old - 1) s')%string
          else String c (replace_from old new 0 s')
      end
  end.

Definition ReplaceAll (s old new : string) : string :=
  match old with
  | EmptyString => s
  | _ => replace_from old new 0 s
  end.

Section Formatting.
(** [err.Error()], dispatched on the dynamic type of [err]. *)
Variable error_Error : error -> result string.
(** The current value of the package variable [FormatMessage]. *)
Variable FormatMessage : list error -> result string.

(** The body of [for i, err := range errs] in [DefaultFormatMessage], with
    the builder's content [buf] passed along.  The index stays below the
    length of the slice, so [i + 1] does not leave the range of [int]. *)
Fixpoint format_range (i : Z) (errs : list error) (buf : string)
  : result string :=
  match errs with
  | [] => Ok buf
  | err :: rest =>
      let buf := if (i >? 0)%Z then (buf ++ nl)%string else buf in
      s <- error_Error err ;;
      format_range (i + 1) rest
        (buf ++ "(" ++ itoa (i + 1) ++ ") "
             ++ ReplaceAll s nl (nl ++ tab))%string
  end.

Definition DefaultFormatMessage (errs : list error) : result string :=
  let buf := "" in
  let buf := (buf ++ itoa (len errs) ++ " errors occurred:" ++ nl)%string in
  format_range 0 errs buf.

Definition multi_Error (m : list error) : result string :=
  match List.length m with
  | 0 => Panic "multierr.multi does not support zero errors"
  | 1 =>
      match m with
      | e :: _ => error_Error e
      | [] => Panic "index out of range [0] with length 0"
      end
  | _ => FormatMessage m
  end.
End Formatting.

(** The method [Error] of every value of [error], with [FormatMessage] at
    its initial value [DefaultFormatMessage].  Calling a method on the nil
    interface panics. *)
Fixpoint Error (err : error) : result string :=
  match err with
  | nil_error =>
      Panic "runtime error: invalid memory address or nil pointer dereference"
  | other _ _ msg _ => Ok msg
  | multi m => multi_Error Error (DefaultFormatMessage Error) m
  end.

(** The sentinels of the package's examples, made with [errors.New]. *)
Definition oops : error := other "*errors.errorString" 1 "oops" nil_error.
Definition whoops : error := other "*errors.errorString" 2 "whoops" nil_error.
Definition whoopsie : error :=
  other "*errors.errorString" 3 "whoopsie" nil_error.


(** The package example: [sprinkleMagicDust] returns what [DoSomeMagic]
    returns, and its deferred function then replaces the named result by
    [Append(err, d.Close())].  Each [errors.New] gives a fresh pointer. *)
Definition Dummy_DoSomeMagic : error :=
  other "*errors.errorString" 4 "magic not available" nil_error.
Definition Dummy_Close : error :=
  other "*errors.errorString" 5 "close: whoopsie" nil_error.
Definition sprinkleMagicDust : error :=
  let err := Dummy_DoSomeMagic in
  Append err Dummy_Close.

(** ** Vocabulary of the statements *)

(** A present error that is not a composite. *)
Definition singular (err : error) : bool :=
  negb (is_nil err) && negb (is_multi err).

(** No direct element is a composite. *)
Definition flat (m : list error) : bool :=
  forallb (fun e => negb (is_multi e)) m.

(** The invariant of composites: at least two elements, none a composite. *)
Definition well_formed (err : error) : bool :=
  match err with
  | multi m => (2 <=? List.length m)%nat && flat m
  | _ => true
  end.

(** What an operand contributes to a composite. *)
Definition elements (err : error) : list error :=
  match err with
  | multi ms => ms
  | _ => [err]
  end.

(** Left-to-right accumulation [err = Append(err, e)] from nil. *)
Definition accumulate (es : list error) : error :=
  fold_left Append es nil_error.

(** A callback instrumented with the number of its calls. *)
Definition counted {S : Type} (f : error -> S -> S)
  : error -> Z * S -> Z * S :=
  fun e st => ((fst st + 1)%Z, f e (snd st)).

(** A callback instrumented with the arguments of its calls, in order. *)
Definition traced {S : Type} (f : error -> S -> S)
  : error -> list error * S -> list error * S :=
  fun e st => (fst st ++ [e], f e (snd st)).


(** A library call that leaves the state alone when it answers false. *)
Definition keeps_on_false {T St : Type} (h : error -> T -> St -> bool * St)
  : Prop :=
  forall e t st, fst (h e t st) = false -> snd (h e t st) = st.


(** The composite's [Is] method under Go's [errors.Is]. *)
Definition Is (m : list error) (target : error) : bool :=
  fst (multi_Is (pure2 errors.Is) m target tt).

(** The composite's [As] method under Go's [errors.As]; [slot] is the
    content of the target variable before the call. *)
Definition As (m : list error) (T : gotype) (slot : error) : bool * error :=
  multi_As errors.As m T slot.

(** The default message, as the format describes it: every newline of an
    element's message is followed by a tab, *)
Fixpoint indent (s : string) : string :=
  match s with
  | EmptyString => EmptyString
  | String c s' =>
      if Ascii.eqb c "010"
      then String "010" (String "009" (indent s'))
      else String c (indent s')
  end.

(** each element gives one entry with its index, *)
Definition entry (i : Z) (msg : string) : string :=
  ("(" ++ itoa i ++ ") " ++ indent msg)%string.

Fixpoint entries (i : Z) (msgs : list string) : list string :=
  match msgs with
  | [] => []
  | msg :: rest => entry i msg :: entries (i + 1) rest
  end.

(** and the entries, numbered from 1 and separated by single newlines,
    follow the header line. *)
Definition rendering (msgs : list string) : string :=
  (itoa (len msgs) ++ " errors occurred:" ++ nl
     ++ String.concat nl (entries 1 msgs))%string.

(** A value a caller can hold after using only [Append] on errors obtained
    elsewhere: nil, a present non-composite error, or a composite of at
    least two present non-composite errors. *)
Definition proper (err : error) : bool :=
  match err with
  | multi m => (2 <=? List.length m)%nat && forallb singular m
  | _ => true
  end.

(** The message of a present non-composite error. *)
Definition message (err : error) : string :=
  match err with
  | other _ _ msg _ => msg
  | _ => EmptyString
  end.


(** Every newline of [s] is followed by a character that satisfies [ok]. *)
Fixpoint after_newline (ok : ascii -> bool) (s : string) : bool :=
  match s with
  | EmptyString => true
  | String c s' =>
      (if Ascii.eqb c "010"
       then match s' with
            | EmptyString => false
            | String c' _ => ok c'
            end
       else true) && after_newline ok s'
  end.

(** The first character of a continuation line or of an entry. *)
Definition tab_or_paren (c : ascii) : bool :=
  Ascii.eqb c "009" || Ascii.eqb c "(".

(** * Properties *)

(** ** Helper facts *)

Lemma singular_inv (e : error) :
  singular e = true ->
  exists typ addr msg cause, e = other typ addr msg cause.
Proof.
  destruct e as [|typ addr msg cause|m]; simpl; try discriminate.
  intros _. now exists typ, addr, msg, cause.
Qed.

Lemma flat_app (m1 m2 : list error) :
  flat (m1 ++ m2) = flat m1 && flat m2.
Proof. unfold flat. apply forallb_app. Qed.

Lemma flat_singulars (es : list error) :
  Forall (fun e => singular e = true) es -> flat es = true.
Proof.
  induction 1 as [|e es He _ IH]; [reflexivity|].
  simpl. rewrite IH.
  destruct (singular_inv e He) as (t & a & s & c & ->). reflexivity.
Qed.

Lemma range_fold {S : Type} (m : list error) (f : error -> S -> S) (s : S) :
  range m f s = fold_left (fun s e => f e s) m s.
Proof. revert s. induction m as [|e m IH]; intros s; simpl; auto. Qed.

Lemma range_collect (m acc : list error) :
  range m (fun err errs => errs ++ [err]) acc = acc ++ m.
Proof.
  revert acc. induction m as [|e m IH]; intros acc; simpl.
  - now rewrite app_nil_r.
  - rewrite IH, <- app_assoc. reflexivity.
Qed.

Lemma range_counted {S : Type} (m : list error) (f : error -> S -> S)
    (n : Z) (s : S) :
  range m (counted f) (n, s) = ((n + len m)%Z, range m f s).
Proof.
  revert n s. induction m as [|e m IH]; intros n s.
  - simpl. f_equal. unfold len. simpl. lia.
  - simpl. unfold counted at 2. simpl. rewrite IH. f_equal.
    unfold len. simpl List.length. lia.
Qed.

Lemma range_traced {S : Type} (m : list error) (f : error -> S -> S)
    (tr : list error) (s : S) :
  range m (traced f) (tr, s) = (tr ++ m, range m f s).
Proof.
  revert tr s. induction m as [|e m IH]; intros tr s.
  - simpl. now rewrite app_nil_r.
  - simpl. unfold traced at 2. simpl. rewrite IH, <- app_assoc. reflexivity.
Qed.

Lemma All_multi (m : list error) : All (multi m) = m.
Proof. unfold All, ForEach. simpl. apply range_collect. Qed.

Lemma All_singular (e : error) : singular e = true -> All e = [e].
Proof.
  intros He. destruct (singular_inv e He) as (t & a & s & c & ->).
  reflexivity.
Qed.

Lemma Append_multi_singulars (m es : list error) :
  Forall (fun e => singular e = true) es ->
  fold_left Append es (multi m) = multi (m ++ es).
Proof.
  intros Hes. revert m.
  induction Hes as [|e es He _ IH]; intros m; simpl.
  - now rewrite app_nil_r.
  - destruct (singular_inv e He) as (t & a & s & c & ->).
    cbn [fold_left].
    change (Append (multi m) (other t a s c)) with (multi (m ++ [other t a s c])).
    rewrite IH, <- app_assoc. reflexivity.
Qed.

Lemma accumulate_singulars (e1 e2 : error) (es : list error) :
  Forall (fun e => singular e = true) (e1 :: e2 :: es) ->
  accumulate (e1 :: e2 :: es) = multi (e1 :: e2 :: es).
Proof.
  intros H. inversion H as [|? ? H1 H']; subst.
  inversion H' as [|? ? H2 Hes]; subst.
  destruct (singular_inv e1 H1) as (t1 & a1 & s1 & c1 & ->).
  destruct (singular_inv e2 H2) as (t2 & a2 & s2 & c2 & ->).
  unfold accumulate. cbn [fold_left].
  match goal with
  | |- fold_left _ _ ?acc = _ => change acc with (multi [other t1 a1 s1 c1; other t2 a2 s2 c2])
  end.
  now rewrite Append_multi_singulars.
Qed.

(** ** Append *)

(** C1: [Append a b] follows its five rules in order: a nil [b] gives [a];
    otherwise a nil [a] gives [b]; otherwise a composite [a] gives [a]
    extended by the elements of [b] (those of [b] when it is a composite,
    [b] itself when not); otherwise a composite [b] gives a new composite of
    [a] followed by the elements of [b]; otherwise the result is the
    two-element composite of [a] and [b], whose [All] is [[a; b]] and whose
    [Len] is 2. *)
Theorem Append_case_analysis (a b : error) :
  (is_nil b = true -> Append a b = a) /\
  (is_nil b = false -> is_nil a = true -> Append a b = b) /\
  (is_nil b = false -> is_nil a = false -> is_multi a = true ->
   Append a b = multi (elements a ++ elements b)) /\
  (is_nil b = false -> is_nil a = false -> is_multi a = false ->
   is_multi b = true ->
   Append a b = multi (a :: elements b)) /\
  (singular a = true -> singular b = true ->
   Append a b = multi [a; b] /\
   All (Append a b) = [a; b] /\
   Len (Append a b) = 2%Z).
Proof.
  split; [|split; [|split; [|split]]].
  1-4: destruct b, a; simpl; intros; try discriminate; reflexivity.
  intros Ha Hb.
  destruct (singular_inv a Ha) as (? & ? & ? & ? & ->).
  destruct (singular_inv b Hb) as (? & ? & ? & ? & ->).
  repeat split; reflexivity.
Qed.

Lemma Append_case_analysis_witness :
  Append oops nil_error = oops /\
  Append nil_error whoops = whoops /\
  Append (multi [oops; whoops]) whoopsie = multi [oops; whoops; whoopsie] /\
  Append (multi [oops; whoops]) (multi [whoopsie; oops]) =
    multi [oops; whoops; whoopsie; oops] /\
  Append oops (multi [whoops; whoopsie]) = multi [oops; whoops; whoopsie] /\
  (Append oops whoops = multi [oops; whoops] /\
   All (Append oops whoops) = [oops; whoops] /\
   Len (Append oops whoops) = 2%Z).
Proof.
  split; [|split; [|split; [|split; [|split]]]].
  - apply (proj1 (Append_case_analysis oops nil_error)). reflexivity.
  - apply (proj1 (proj2 (Append_case_analysis nil_error whoops)));
      reflexivity.
  - apply (proj1 (proj2 (proj2
             (Append_case_analysis (multi [oops; whoops]) whoopsie))));
      reflexivity.
  - apply (proj1 (proj2 (proj2
             (Append_case_analysis (multi [oops; whoops])
                (multi [whoopsie; oops])))));
      reflexivity.
  - apply (proj1 (proj2 (proj2 (proj2
             (Append_case_analysis oops (multi [whoops; whoopsie]))))));
      reflexivity.
  - apply (proj2 (proj2 (proj2 (proj2
             (Append_case_analysis oops whoops)))));
      reflexivity.
Defined.

(** C2: nil is a two-sided identity of [Append]: [Append nil nil] is nil,
    and for every error value [x] (absent, singular or composite) both
    [Append nil x] and [Append x nil] are [x] itself. *)
Theorem Append_identity (x : error) :
  Append nil_error nil_error = nil_error /\
  Append nil_error x = x /\
  Append x nil_error = x.
Proof.
  repeat split; destruct x; reflexivity.
Qed.

(** C3: when every composite operand has at least two elements and no
    composite among them, the result of [Append] is nil, or one of the
    operands and not a composite, or a composite with at least two elements
    none of which is a composite; in every case the result satisfies the
    invariant again. *)
Theorem Append_preserves_invariant (a b : error) :
  well_formed a = true ->
  well_formed b = true ->
  (Append a b = nil_error \/
   (is_multi (Append a b) = false /\ (Append a b = a \/ Append a b = b)) \/
   (exists m, Append a b = multi m /\ 2 <= List.length m /\ flat m = true))
  /\ well_formed (Append a b) = true.
Proof.
  intros Ha Hb.
  assert (Hm : forall m, (2 <= List.length m /\ flat m = true) ->
                         well_formed (multi m) = true).
  { intros m [Hl Hf]. unfold well_formed. rewrite Hf.
    apply Nat.leb_le in Hl. now rewrite Hl. }
  assert (Hw : forall m, well_formed (multi m) = true ->
                         2 <= List.length m /\ flat m = true).
  { intros m H. unfold well_formed in H.
    apply andb_true_iff in H as [Hl Hf].
    apply Nat.leb_le in Hl. auto. }
  destruct b as [|tb ab sb cb|ms]; destruct a as [|ta aa sa ca|md].
  - split; [now left | reflexivity].
  - split; [right; left; simpl; auto | reflexivity].
  - split; [|exact Ha]. right; right. exists md. split; [reflexivity|].
    now apply Hw.
  - split; [right; left; simpl; auto | reflexivity].
  - split; [right; right; eexists; split; [reflexivity|]; simpl; auto
           | reflexivity].
  - apply Hw in Ha as [Hl Hf].
    assert (H : 2 <= List.length (md ++ [other tb ab sb cb]) /\
                flat (md ++ [other tb ab sb cb]) = true).
    { rewrite length_app, flat_app, Hf. simpl. split; [lia | reflexivity]. }
    split; [right; right; eexists; split; [reflexivity | exact H]
           | now apply Hm].
  - split; [|exact Hb]. right; right. exists ms. split; [reflexivity|].
    now apply Hw.
  - apply Hw in Hb as [Hl Hf].
    assert (H : 2 <= List.length (other ta aa sa ca :: ms) /\
                flat (other ta aa sa ca :: ms) = true).
    { simpl. split; [lia | exact Hf]. }
    split; [right; right; eexists; split; [reflexivity | exact H]
           | now apply Hm].
  - apply Hw in Ha as [Hla Hfa]. apply Hw in Hb as [Hlb Hfb].
    assert (H : 2 <= List.length (md ++ ms) /\ flat (md ++ ms) = true).
    { rewrite length_app, flat_app, Hfa, Hfb. split; [lia | reflexivity]. }
    split; [right; right; eexists; split; [reflexivity | exact H]
           | now apply Hm].
Qed.

Lemma Append_preserves_invariant_witness :
  (Append (multi [oops; whoops]) (multi [whoopsie; oops]) = nil_error \/
   (is_multi (Append (multi [oops; whoops]) (multi [whoopsie; oops])) = false
    /\ (Append (multi [oops; whoops]) (multi [whoopsie; oops]) =
          multi [oops; whoops] \/
        Append (multi [oops; whoops]) (multi [whoopsie; oops]) =
          multi [whoopsie; oops])) \/
   (exists m,
      Append (multi [oops; whoops]) (multi [whoopsie; oops]) = multi m /\
      2 <= List.length m /\ flat m = true))
  /\ well_formed (Append (multi [oops; whoops]) (multi [whoopsie; oops]))
     = true.
Proof.
  apply (Append_preserves_invariant
           (multi [oops; whoops]) (multi [whoopsie; oops])); reflexivity.
Defined.

(** C4: accumulating one or more present, non-composite errors from nil by
    repeated [Append] gives a value whose [All] is exactly the sequence that
    was accumulated; the value is the single error itself for one error and
    a composite for more, it satisfies the invariant, and no element of a
    resulting composite is a composite. *)
Theorem accumulate_flattens (es : list error) :
  es <> [] ->
  Forall (fun e => singular e = true) es ->
  All (accumulate es) = es /\
  well_formed (accumulate es) = true /\
  flat (elements (accumulate es)) = true.
Proof.
  intros Hne Hes.
  destruct es as [|e1 [|e2 es]]; [congruence | |].
  - inversion Hes as [|? ? H1 _]; subst.
    destruct (singular_inv e1 H1) as (t & a & s & c & ->).
    repeat split; reflexivity.
  - rewrite (accumulate_singulars e1 e2 es Hes).
    pose proof (flat_singulars _ Hes) as Hf.
    split; [apply All_multi|]. split.
    + unfold well_formed. rewrite Hf. reflexivity.
    + exact Hf.
Qed.

Lemma accumulate_flattens_witness :
  All (accumulate [oops; whoops; whoopsie]) = [oops; whoops; whoopsie] /\
  well_formed (accumulate [oops; whoops; whoopsie]) = true /\
  flat (elements (accumulate [oops; whoops; whoopsie])) = true.
Proof.
  apply (accumulate_flattens [oops; whoops; whoopsie]).
  - discriminate.
  - repeat constructor.
Defined.

(** ** ForEach, Len, All *)

(** C5: for every error value, [Len] is the length of [All] and the number
    of calls [ForEach] makes to its callback, whatever the callback does;
    [Len] of nil is 0, of a composite its number of elements, and of any
    other present error 1. *)
Theorem Len_All_ForEach_agree (err : error) :
  Len err = len (All err) /\
  (forall (S : Type) (f : error -> S -> S) (s : S),
     ForEach err (counted f) (0%Z, s) = (Len err, ForEach err f s)) /\
  Len nil_error = 0%Z /\
  (forall m, Len (multi m) = len m) /\
  (forall typ addr msg cause, Len (other typ addr msg cause) = 1%Z).
Proof.
  split; [|split; [|repeat split]].
  - destruct err as [| |m]; try reflexivity.
    now rewrite All_multi.
  - intros S f s. destruct err as [| |m]; try reflexivity.
    unfold ForEach, Len. cbn [is_nil as_multi].
    now rewrite range_counted.
Qed.

(** C6: [ForEach] on nil makes no call and [All] of nil is empty; on a
    composite it calls the callback once per element, in the order of the
    elements, each call working on the state the previous one left, and
    returns the state left by the last call; on any other present error it
    makes exactly one call, with that error as the argument. *)
Theorem ForEach_contract (S : Type) (f : error -> S -> S) (s : S) :
  ForEach nil_error (traced f) ([], s) = ([], s) /\
  All nil_error = [] /\
  (forall m,
     ForEach (multi m) (traced f) ([], s) =
       (m, fold_left (fun s e => f e s) m s)) /\
  (forall typ addr msg cause,
     ForEach (other typ addr msg cause) (traced f) ([], s) =
       ([other typ addr msg cause], f (other typ addr msg cause) s)).
Proof.
  split; [reflexivity|]. split; [reflexivity|]. split.
  - intros m. unfold ForEach. cbn [is_nil as_multi].
    now rewrite range_traced, range_fold.
  - reflexivity.
Qed.

(** ** Is and As *)

Section FirstMatch.
Context {St : Type}.


Lemma multi_Is_first (h : error -> error -> St -> bool * St) :
  keeps_on_false h ->
  forall m t st,
    multi_Is h m t st =
      (existsb (fun e => fst (h e t st)) m,
       match find (fun e => fst (h e t st)) m with
       | Some e => snd (h e t st)
       | None => st
       end).
Proof.
  intros Hk m t st. induction m as [|e m IH]; [reflexivity|].
  cbn. pose proof (Hk e t st) as Hke.
  destruct (h e t st) as [[|] st'] eqn:E; cbn in *;
    [now rewrite E|].
  rewrite Hke by reflexivity. exact IH.
Qed.


End FirstMatch.

Lemma pure2_keeps {T St : Type} (h : error -> T -> bool) :
  keeps_on_false (St := St) (pure2 h).
Proof. intros e t st _. reflexivity. Qed.

Lemma errors_As_keeps : keeps_on_false errors.As.
Proof.
  intros e T. induction e as [|typ addr msg cause IH|m IH] using error_ind';
    intros slot H.
  - reflexivity.
  - cbn [errors.As] in *.
    destruct (errors.AssignableTo _ T); [discriminate | now apply IH].
  - cbn [errors.As] in *.
    destruct (errors.AssignableTo _ T); [discriminate|].
    revert slot H. induction IH as [|e m He _ IHm]; intros slot H.
    + reflexivity.
    + cbn [multi_As] in *. specialize (He slot).
      destruct (errors.As e T slot) as [[|] slot'];
        cbn [fst snd] in *; [discriminate|].
      rewrite He in * by reflexivity. now apply IHm.
Qed.

Lemma Is_exists (m : list error) (target : error) :
  Is m target = existsb (fun e => errors.Is e target) m.
Proof.
  unfold Is. now rewrite (multi_Is_first _ (pure2_keeps errors.Is)).
Qed.


Lemma errors_Is_multi (m : list error) (target : error) :
  is_nil target = false -> errors.Is (multi m) target = Is m target.
Proof.
  intros H. unfold errors.Is at 1, errors.Is_of. cbn [is_nil orb]. rewrite H.
  cbn [errors.is']. fold errors.Is. fold (Is m target).
  replace (errors.Comparable target && errors.equal (multi m) target)
    with false by (now rewrite andb_false_r).
  now destruct (Is m target).
Qed.




(** ** Rendering *)

Lemma append_assoc (s1 s2 s3 : string) :
  ((s1 ++ s2) ++ s3 = s1 ++ (s2 ++ s3))%string.
Proof. induction s1 as [|c s1 IH]; simpl; [reflexivity | now rewrite IH]. Qed.

Lemma append_empty_r (s : string) : (s ++ "" = s)%string.
Proof. induction s as [|c s IH]; simpl; [reflexivity | now rewrite IH]. Qed.

Lemma ReplaceAll_indent (s : string) : ReplaceAll s nl (nl ++ tab) = indent s.
Proof.
  unfold ReplaceAll, nl, tab. cbn [String.length Nat.sub append].
  induction s as [|c s IH]; [reflexivity|].
  cbn [replace_from prefix indent].
  destruct (ascii_dec "010" c) as [<-|Hc].
  - replace (prefix "" s) with true by (now destruct s).
    cbn. now rewrite IH.
  - destruct (Ascii.eqb_spec c "010") as [->|_]; [congruence|].
    now rewrite IH.
Qed.

(** What the loop of [DefaultFormatMessage] adds to the builder from index
    [i] on. *)
Lemma format_range_entries (errs : list error) (msgs : list string) :
  Forall2 (fun e msg => Error e = Ok msg) errs msgs ->
  forall i buf,
    (0 <= i)%Z ->
    format_range Error i errs buf =
      Ok (buf ++
          match msgs with
          | [] => ""
          | _ => (if (i >? 0)%Z then nl else "")
                   ++ String.concat nl (entries (i + 1) msgs)
          end)%string.
Proof.
  induction 1 as [|e msg errs msgs He Hrest IH]; intros i buf Hi.
  - cbn. now rewrite append_empty_r.
  - cbn [format_range]. rewrite He. cbn [bind].
    rewrite IH by lia. f_equal.
    rewrite ReplaceAll_indent. cbn [entries String.concat].
    fold (entry (i + 1) msg).
    replace (i + 1 >? 0)%Z with true by (symmetry; apply Z.gtb_lt; lia).
    destruct msgs as [|msg' msgs].
    + inversion Hrest; subst. cbn.
      destruct (i >? 0)%Z; unfold entry;
        rewrite ?append_assoc, ?append_empty_r; reflexivity.
    + set (tl := String.concat nl (entries (i + 1 + 1) (msg' :: msgs))).
      destruct (i >? 0)%Z; unfold entry;
        rewrite ?append_assoc; reflexivity.
Qed.

Lemma DefaultFormatMessage_rendering (errs : list error) (msgs : list string) :
  Forall2 (fun e msg => Error e = Ok msg) errs msgs ->
  DefaultFormatMessage Error errs =
    Ok (match msgs with
        | [] => itoa 0 ++ " errors occurred:" ++ nl
        | _ => rendering msgs
        end)%string.
Proof.
  intros H. unfold DefaultFormatMessage.
  rewrite (format_range_entries errs msgs H) by lia.
  assert (Hlen : len errs = len msgs).
  { unfold len. f_equal. clear -H. induction H; simpl; congruence. }
  rewrite Hlen. destruct msgs as [|msg msgs].
  - cbn. rewrite ?append_empty_r. reflexivity.
  - unfold rendering. cbn [Z.gtb Z.compare append Z.add].
    now rewrite !append_assoc.
Qed.

(** C8: for a composite of two or more elements whose own messages are
    [msgs], the message is the header line with the number of elements,
    then one entry [(i) message] per element, numbered from 1 in the order
    of the elements and separated by single newlines, with nothing after
    the last entry; inside an entry every newline of the element's message
    is followed by a tab.  The formatter gives the same text.  The errors
    "oops", "whoops", "whoopsie" accumulated in that order render as the
    four lines of the package's example. *)
Theorem default_message_format (errs : list error) (msgs : list string) :
  (Forall2 (fun e msg => Error e = Ok msg) errs msgs ->
   2 <= List.length errs ->
   Error (multi errs) = Ok (rendering msgs) /\
   DefaultFormatMessage Error errs = Ok (rendering msgs)) /\
  (forall msg1 msg2,
     rendering (msgs ++ [(msg1 ++ nl ++ msg2)%string]) =
       (itoa (len msgs + 1) ++ " errors occurred:" ++ nl
          ++ String.concat nl
               (entries 1 msgs
                  ++ [("(" ++ itoa (len msgs + 1) ++ ") " ++ indent msg1
                         ++ nl ++ tab ++ indent msg2)%string]))%string) /\
  Error (accumulate [oops; whoops; whoopsie]) =
    Ok ("3 errors occurred:" ++ nl
          ++ "(1) oops" ++ nl
          ++ "(2) whoops" ++ nl
          ++ "(3) whoopsie")%string.
Proof.
  split; [|split; [|reflexivity]].
  - intros H Hlen.
    pose proof (DefaultFormatMessage_rendering errs msgs H) as HD.
    assert (Hm : exists msg msgs', msgs = msg :: msgs').
    { destruct H; simpl in Hlen; [lia | eauto]. }
    destruct Hm as (msg & msgs' & ->).
    split; [|exact HD].
    cbn [Error]. unfold multi_Error.
    destruct errs as [|e1 [|e2 errs]]; simpl in Hlen; try lia.
    exact HD.
  - intros msg1 msg2. unfold rendering. f_equal.
    + unfold len. rewrite length_app. simpl. f_equal. lia.
    + f_equal. f_equal. f_equal.
      assert (Hind : forall a b, indent (a ++ nl ++ b)%string
                                 = (indent a ++ nl ++ tab ++ indent b)%string).
      { intros a b. induction a as [|c a IH]; [reflexivity|].
        cbn [append indent]. rewrite IH.
        now destruct (Ascii.eqb c "010"). }
      assert (Hent : forall ms i,
                entries i (ms ++ [(msg1 ++ nl ++ msg2)%string]) =
                  entries i ms
                    ++ [entry (i + len ms) (msg1 ++ nl ++ msg2)%string]).
      { induction ms as [|m0 ms IH]; intros i.
        - simpl. unfold len. simpl. now rewrite Z.add_0_r.
        - cbn [app entries]. rewrite IH. do 2 f_equal.
          unfold len. cbn [List.length]. rewrite Nat2Z.inj_succ.
          replace (i + 1 + Z.of_nat (List.length ms))%Z
            with (i + Z.succ (Z.of_nat (List.length ms)))%Z by lia.
          reflexivity. }
      rewrite Hent. do 2 f_equal. unfold entry. rewrite Hind.
      now rewrite Z.add_comm.
Qed.

Lemma default_message_format_witness :
  Error (multi [oops; other "*fmt.wrapError" 4 ("a" ++ nl ++ "b") oops]) =
    Ok ("2 errors occurred:" ++ nl
          ++ "(1) oops" ++ nl
          ++ "(2) a" ++ nl ++ tab ++ "b")%string.
Proof.
  apply (proj1 (default_message_format
                  [oops; other "*fmt.wrapError" 4 ("a" ++ nl ++ "b") oops]
                  ["oops"; ("a" ++ nl ++ "b")%string])).
  - repeat constructor.
  - simpl. lia.
Defined.

(** C9: the message of a composite with exactly one element is that
    element's message, without header or index, and asking a composite with
    no element for its message panics; both hold whatever formatter is
    installed. *)
Theorem composite_Error_defensive :
  (forall e, Error (multi [e]) = Error e) /\
  (forall typ addr msg cause,
     Error (multi [other typ addr msg cause]) = Ok msg) /\
  Error (multi []) = Panic "multierr.multi does not support zero errors" /\
  (forall error_Error FormatMessage e,
     multi_Error error_Error FormatMessage [e] = error_Error e) /\
  (forall error_Error FormatMessage,
     multi_Error error_Error FormatMessage [] =
       Panic "multierr.multi does not support zero errors").
Proof. repeat split. Qed.

(** C10: the formatter itself has neither defence: on the empty list it
    does not panic and returns the header for 0 with its newline and
    nothing else, and on a one-element list it returns header and indexed
    entry, where the composite's [Error] returns the bare message and
    panics on the empty composite. *)
Theorem DefaultFormatMessage_undefended :
  (forall error_Error,
     DefaultFormatMessage error_Error [] = Ok ("0 errors occurred:" ++ nl)%string) /\
  (forall typ addr msg cause,
     DefaultFormatMessage Error [other typ addr msg cause] =
       Ok ("1 errors occurred:" ++ nl ++ "(1) " ++ indent msg)%string /\
     Error (multi [other typ addr msg cause]) = Ok msg) /\
  DefaultFormatMessage Error [oops] =
    Ok ("1 errors occurred:" ++ nl ++ "(1) oops")%string /\
  Error (multi []) = Panic "multierr.multi does not support zero errors".
Proof.
  split; [reflexivity|]. split; [|split; reflexivity].
  intros typ addr msg cause. split; [|reflexivity].
  unfold DefaultFormatMessage. cbn [format_range Error bind].
  now rewrite ReplaceAll_indent.
Qed.

(** * Further properties *)

(** ** Append as an operation on element sequences *)

Lemma Append_present (a b : error) :
  is_nil a = false -> is_nil b = false ->
  Append a b = multi (elements a ++ elements b).
Proof. destruct a, b; intros; try discriminate; reflexivity. Qed.

Lemma All_elements (err : error) :
  All err = if is_nil err then [] else elements err.
Proof. destruct err; try reflexivity. apply All_multi. Qed.

(** X1: for operands that are nil or present non-composite errors, which
    hold no slice that a call could grow, [Append] is associative: how a
    caller groups the calls does not matter. *)
Theorem Append_associative (a b c : error) :
  is_multi a = false -> is_multi b = false -> is_multi c = false ->
  Append (Append a b) c = Append a (Append b c).
Proof.
  destruct a, b, c; intros; try discriminate; reflexivity.
Qed.

Lemma Append_associative_witness :
  Append (Append oops whoops) whoopsie = Append oops (Append whoops whoopsie).
Proof. apply (Append_associative oops whoops whoopsie); reflexivity. Defined.

(** X2: [All] and [Len] turn [Append] into concatenation and addition, for all
    error values. *)
Theorem All_Len_Append (a b : error) :
  All (Append a b) = All a ++ All b /\
  Len (Append a b) = (Len a + Len b)%Z.
Proof.
  split.
  - rewrite !All_elements.
    destruct a, b; cbn; rewrite ?app_nil_r; reflexivity.
  - destruct a, b; try reflexivity;
      unfold Len, Append, len; cbn [is_nil as_multi];
      rewrite ?length_app; cbn [List.length]; lia.
Qed.


(** X4: accumulating nil and present non-composite errors onto any start
    value keeps what the start value held and adds, in order, exactly the
    errors that are not nil. *)
Theorem All_fold_Append (es : list error) (acc : error) :
  Forall (fun e => is_multi e = false) es ->
  All (fold_left Append es acc) =
    All acc ++ filter (fun e => negb (is_nil e)) es /\
  All (accumulate es) = filter (fun e => negb (is_nil e)) es.
Proof.
  intros Hes.
  assert (H : forall acc,
            All (fold_left Append es acc) =
              All acc ++ filter (fun e => negb (is_nil e)) es).
  { induction Hes as [|e es He _ IH]; intros acc0;
      cbn [fold_left filter].
    - now rewrite app_nil_r.
    - rewrite IH. rewrite All_elements with (err := Append acc0 e).
      rewrite !All_elements with (err := acc0).
      destruct acc0, e; try discriminate; cbn;
        rewrite <- ?app_assoc; reflexivity. }
  split; [apply H | apply (H nil_error)].
Qed.

Lemma All_fold_Append_witness :
  All (fold_left Append [nil_error; oops; nil_error; whoops]
         (multi [whoopsie; oops])) =
    All (multi [whoopsie; oops])
      ++ filter (fun e => negb (is_nil e))
           [nil_error; oops; nil_error; whoops] /\
  All (accumulate [nil_error; oops; nil_error; whoops]) =
    filter (fun e => negb (is_nil e)) [nil_error; oops; nil_error; whoops].
Proof.
  apply (All_fold_Append [nil_error; oops; nil_error; whoops]
           (multi [whoopsie; oops])).
  repeat constructor.
Defined.

(** ** The values that [Append] builds *)

Lemma proper_elements (e : error) :
  proper e = true -> is_nil e = false ->
  1 <= List.length (elements e) /\ forallb singular (elements e) = true.
Proof.
  destruct e as [|t a s c|m]; intros Hp Hn; try discriminate.
  - split; [cbn; lia | reflexivity].
  - unfold proper in Hp. apply andb_true_iff in Hp as [Hl Hs].
    apply Nat.leb_le in Hl. cbn [elements]. split; [lia | exact Hs].
Qed.

Lemma Append_proper (a b : error) :
  proper a = true -> proper b = true -> proper (Append a b) = true.
Proof.
  intros Ha Hb.
  destruct (is_nil b) eqn:Nb; [destruct b; try discriminate; now destruct a|].
  destruct (is_nil a) eqn:Na; [destruct a; try discriminate; now destruct b|].
  rewrite (Append_present a b Na Nb).
  destruct (proper_elements a Ha Na) as [La Sa].
  destruct (proper_elements b Hb Nb) as [Lb Sb].
  unfold proper. rewrite forallb_app, Sa, Sb, length_app.
  replace (2 <=? _)%nat with true by (symmetry; apply Nat.leb_le; lia).
  reflexivity.
Qed.

(** X5: [Append] keeps callers inside the proper values: from nil and present
    non-composite errors it never builds a composite with fewer than two
    elements, with a nil element or with a composite element, however many
    times and in whatever grouping it is applied. *)
Theorem Append_keeps_proper :
  (forall a b,
     proper a = true -> proper b = true -> proper (Append a b) = true) /\
  (forall es acc,
     proper acc = true -> Forall (fun e => proper e = true) es ->
     proper (fold_left Append es acc) = true).
Proof.
  split; [exact Append_proper|].
  induction es as [|e es IH]; intros acc Hacc Hes; [exact Hacc|].
  inversion Hes as [|? ? He Hes']; subst. cbn [fold_left].
  apply IH; [now apply Append_proper | exact Hes'].
Qed.

Lemma Append_keeps_proper_witness :
  proper (Append (multi [oops; whoops]) whoopsie) = true /\
  proper (fold_left Append [nil_error; whoops; multi [whoopsie; oops]] oops)
    = true.
Proof.
  split.
  - apply (proj1 Append_keeps_proper); reflexivity.
  - apply (proj2 Append_keeps_proper); [reflexivity | repeat constructor].
Defined.

(** X6: taking a proper value apart with [All] and accumulating the parts again
    gives the value back. *)
Theorem accumulate_All (err : error) :
  proper err = true -> accumulate (All err) = err.
Proof.
  intros Hp. destruct err as [|t a s c|m]; try reflexivity.
  rewrite All_multi.
  unfold proper in Hp. apply andb_true_iff in Hp as [Hl Hs].
  apply Nat.leb_le in Hl.
  destruct m as [|e1 [|e2 m]]; cbn in Hl; try lia.
  apply accumulate_singulars. apply Forall_forall.
  now apply forallb_forall.
Qed.

Lemma accumulate_All_witness :
  accumulate (All (multi [oops; whoops; whoopsie])) =
    multi [oops; whoops; whoopsie].
Proof. apply (accumulate_All (multi [oops; whoops; whoopsie])). reflexivity. Defined.

(** X7: [ForEach] is the left fold of its callback over [All], for every error
    value and every callback. *)
Theorem ForEach_fold_All (S : Type) (err : error) (f : error -> S -> S)
    (s : S) :
  ForEach err f s = fold_left (fun s e => f e s) (All err) s.
Proof.
  destruct err as [| |m]; try reflexivity.
  rewrite All_multi. unfold ForEach. cbn [is_nil as_multi]. apply range_fold.
Qed.

(** ** When rendering returns and when it panics *)

Lemma format_range_returns (error_Error : error -> result string)
    (errs : list error) :
  forall i buf,
    (exists r, format_range error_Error i errs buf = Ok r) <->
    Forall (fun e => exists s, error_Error e = Ok s) errs.
Proof.
  induction errs as [|e errs IH]; intros i buf.
  - split; [constructor | intros _; now eexists].
  - cbn [format_range]. split.
    + intros [r Hr].
      destruct (error_Error e) as [s|v] eqn:He; [|discriminate].
      constructor; [now exists s|]. cbn [bind] in Hr.
      eapply IH. eexists. exact Hr.
    + intros H. inversion H as [|? ? [s He] Hrest]; subst.
      rewrite He. cbn [bind]. now apply IH.
Qed.


(** X8: whatever the elements' [Error] methods do, the default formatter
    returns exactly when the [Error] of every element returns, and the
    composite's [Error] returns exactly when the composite is not empty
    and the [Error] of every element returns; otherwise they panic. *)
Theorem Error_returns_iff (error_Error : error -> result string)
    (m : list error) :
  ((exists s, DefaultFormatMessage error_Error m = Ok s) <->
   Forall (fun e => exists s, error_Error e = Ok s) m) /\
  ((exists s,
      multi_Error error_Error (DefaultFormatMessage error_Error) m = Ok s) <->
   m <> [] /\ Forall (fun e => exists s, error_Error e = Ok s) m) /\
  ((exists s, Error (multi m) = Ok s) <->
   m <> [] /\ Forall (fun e => exists s, Error e = Ok s) m).
Proof.
  assert (HD : forall h,
            (exists s, DefaultFormatMessage h m = Ok s) <->
            Forall (fun e => exists s, h e = Ok s) m)
    by (intros h; unfold DefaultFormatMessage; apply format_range_returns).
  assert (HM : forall h,
            (exists s, multi_Error h (DefaultFormatMessage h) m = Ok s) <->
            m <> [] /\ Forall (fun e => exists s, h e = Ok s) m).
  { intros h. unfold multi_Error. destruct m as [|e1 [|e2 m']].
    - cbn [List.length]. split; [intros [s H]; discriminate|].
      intros [H _]. congruence.
    - cbn [List.length]. split.
      + intros H. split; [discriminate | now repeat constructor].
      + intros [_ H]. now inversion H.
    - cbn [List.length]. rewrite HD. split.
      + intros H. split; [discriminate | exact H].
      + intros [_ H]. exact H. }
  split; [apply HD|]. split; [apply HM|]. apply (HM Error).
Qed.



Lemma singular_messages (es : list error) :
  Forall (fun e => singular e = true) es ->
  Forall2 (fun e msg => Error e = Ok msg) es (map message es).
Proof.
  induction 1 as [|e es He _ IH]; cbn [map]; constructor; [|exact IH].
  destruct (singular_inv e He) as (t & a & s & c & ->). reflexivity.
Qed.

(** X10: printing what was accumulated: one present non-composite error prints
    as its own message, and two or more print as the numbered list of their
    messages in the order they were appended. *)
Theorem Error_accumulate (es : list error) :
  Forall (fun e => singular e = true) es ->
  (forall e, es = [e] -> Error (accumulate es) = Ok (message e)) /\
  (2 <= List.length es ->
   Error (accumulate es) = Ok (rendering (map message es))).
Proof.
  intros Hes. split.
  - intros e ->. inversion Hes as [|? ? He _]; subst.
    destruct (singular_inv e He) as (t & a & s & c & ->). reflexivity.
  - intros Hl. destruct es as [|e1 [|e2 es]]; cbn in Hl; try lia.
    rewrite (accumulate_singulars e1 e2 es Hes).
    pose proof (DefaultFormatMessage_rendering _ _ (singular_messages _ Hes))
      as HD.
    cbn [Error]. unfold multi_Error. cbn [List.length]. exact HD.
Qed.

Lemma Error_accumulate_witness :
  Error sprinkleMagicDust =
    Ok ("2 errors occurred:" ++ nl
          ++ "(1) magic not available" ++ nl
          ++ "(2) close: whoopsie")%string.
Proof.
  apply (proj2 (Error_accumulate [Dummy_DoSomeMagic; Dummy_Close]
                  ltac:(repeat constructor))).
  simpl. lia.
Defined.

(** ** Matching through Append *)

Lemma errors_Is_nil_l (target : error) :
  is_nil target = false -> errors.Is nil_error target = false.
Proof. now destruct target. Qed.

Lemma errors_Is_elements (a target : error) :
  is_nil target = false -> is_nil a = false ->
  errors.Is a target = existsb (fun e => errors.Is e target) (elements a).
Proof.
  intros Ht Ha. destruct a as [|t p s c|m]; try discriminate.
  - cbn [elements existsb]. now rewrite orb_false_r.
  - rewrite (errors_Is_multi m target Ht). apply Is_exists.
Qed.

(** X11: for a present target, [errors.Is] matches the result of [Append]
    exactly when it matches one of the operands: appending neither hides a
    match nor invents one. *)
Theorem errors_Is_Append (a b target : error) :
  is_nil target = false ->
  errors.Is (Append a b) target = errors.Is a target || errors.Is b target.
Proof.
  intros Ht.
  destruct (is_nil b) eqn:Nb.
  { destruct b; try discriminate.
    rewrite (errors_Is_nil_l target Ht), orb_false_r. now destruct a. }
  destruct (is_nil a) eqn:Na.
  { destruct a; try discriminate.
    rewrite (errors_Is_nil_l target Ht). now destruct b. }
  rewrite (Append_present a b Na Nb), (errors_Is_multi _ target Ht).
  rewrite Is_exists, existsb_app.
  now rewrite <- !errors_Is_elements.
Qed.

Lemma errors_Is_Append_witness :
  errors.Is (Append (multi [oops; whoops]) whoopsie) whoops =
    errors.Is (multi [oops; whoops]) whoops || errors.Is whoopsie whoops.
Proof.
  apply (errors_Is_Append (multi [oops; whoops]) whoopsie whoops).
  reflexivity.
Defined.

Lemma multi_As_app (m1 m2 : list error) (T : gotype) (slot : error) :
  multi_As errors.As (m1 ++ m2) T slot =
    if fst (multi_As errors.As m1 T slot)
    then multi_As errors.As m1 T slot
    else multi_As errors.As m2 T slot.
Proof.
  induction m1 as [|e m1 IH]; [reflexivity|].
  cbn [app multi_As]. pose proof (errors_As_keeps e T slot) as Hk.
  destruct (errors.As e T slot) as [[|] slot']; cbn [fst snd] in *;
    [reflexivity|].
  rewrite Hk by reflexivity. exact IH.
Qed.

Lemma errors_As_elements (a : error) (name : string) (slot : error) :
  is_nil a = false ->
  errors.As a (type_named name) slot =
    multi_As errors.As (elements a) (type_named name) slot.
Proof.
  intros Ha. destruct a as [|t p s c|m]; try discriminate.
  - cbn [elements multi_As].
    now destruct (errors.As (other t p s c) (type_named name) slot) as [[|] ?].
  - reflexivity.
Qed.

(** X12: for a target of a named concrete type, [errors.As] on the result of
    [Append] is [errors.As] on the first operand when that matches, and on
    the second operand otherwise: the first operand's match is the one
    bound, and the target is untouched when neither matches. *)
Theorem errors_As_Append (a b : error) (name : string) (slot : error) :
  errors.As (Append a b) (type_named name) slot =
    (if fst (errors.As a (type_named name) slot)
     then errors.As a (type_named name) slot
     else errors.As b (type_named name) slot) /\
  (fst (errors.As a (type_named name) slot) = false ->
   fst (errors.As b (type_named name) slot) = false ->
   errors.As (Append a b) (type_named name) slot = (false, slot)).
Proof.
  assert (H : errors.As (Append a b) (type_named name) slot =
                if fst (errors.As a (type_named name) slot)
                then errors.As a (type_named name) slot
                else errors.As b (type_named name) slot).
  { destruct (is_nil b) eqn:Nb.
    { destruct b; try discriminate.
      replace (Append a nil_error) with a by now destruct a.
      pose proof (errors_As_keeps a (type_named name) slot) as Hk.
      destruct (errors.As a (type_named name) slot) as [[|] slot'];
        cbn [fst snd] in *; [reflexivity|].
      now rewrite Hk. }
    destruct (is_nil a) eqn:Na.
    { destruct a; try discriminate. now destruct b. }
    rewrite (Append_present a b Na Nb).
    change (errors.As (multi (elements a ++ elements b)) (type_named name) slot)
      with (multi_As errors.As (elements a ++ elements b) (type_named name)
              slot).
    now rewrite multi_As_app, <- !errors_As_elements. }
  split; [exact H|].
  intros Ha Hb. rewrite H, Ha.
  pose proof (errors_As_keeps b (type_named name) slot Hb) as Hk.
  destruct (errors.As b (type_named name) slot) as [ok slot'].
  cbn [fst snd] in *. now subst.
Qed.

Lemma errors_As_Append_witness :
  errors.As (Append oops whoops) (type_named "*fs.PathError") nil_error =
    (false, nil_error).
Proof.
  apply (proj2 (errors_As_Append oops whoops "*fs.PathError" nil_error));
    reflexivity.
Defined.




(** ** The lines of the default message *)

Lemma after_newline_app (ok : ascii -> bool) (s1 s2 : string) :
  after_newline ok s1 = true -> after_newline ok s2 = true ->
  after_newline ok (s1 ++ s2) = true.
Proof.
  intros H1 H2. induction s1 as [|c s1 IH]; [exact H2|].
  cbn [append after_newline] in *.
  apply andb_true_iff in H1 as [Hc Hrest].
  rewrite (IH Hrest), andb_true_r.
  destruct (Ascii.eqb c "010"); [|reflexivity].
  destruct s1 as [|c' s1]; [discriminate | exact Hc].
Qed.

Lemma after_newline_weaken (ok : ascii -> bool) (s : string) :
  after_newline (fun _ => false) s = true -> after_newline ok s = true.
Proof.
  induction s as [|c s IH]; [reflexivity|].
  cbn [after_newline]. intros H. apply andb_true_iff in H as [Hc Hrest].
  rewrite (IH Hrest), andb_true_r.
  destruct (Ascii.eqb c "010"); [|reflexivity].
  destruct s; discriminate.
Qed.

Lemma string_of_uint_one_line (d : Decimal.uint) :
  after_newline (fun _ => false) (NilEmpty.string_of_uint d) = true.
Proof. induction d; cbn; auto. Qed.

Lemma itoa_one_line (ok : ascii -> bool) (n : Z) :
  after_newline ok (itoa n) = true.
Proof.
  apply after_newline_weaken. unfold itoa, NilEmpty.string_of_int.
  destruct (Z.to_int n); [|cbn [after_newline Ascii.eqb]; cbn];
    apply string_of_uint_one_line.
Qed.

Lemma indent_lines (s : string) :
  after_newline tab_or_paren (indent s) = true.
Proof.
  induction s as [|c s IH]; [reflexivity|].
  cbn [indent]. destruct (Ascii.eqb c "010") eqn:E.
  - cbn. exact IH.
  - cbn [after_newline]. now rewrite E, IH.
Qed.

Lemma entry_lines (i : Z) (msg : string) :
  after_newline tab_or_paren (entry i msg) = true /\
  exists rest, entry i msg = String "(" rest.
Proof.
  split; [|now eexists].
  unfold entry. repeat apply after_newline_app;
    auto using itoa_one_line, indent_lines.
Qed.

Lemma entries_lines (msgs : list string) :
  msgs <> [] ->
  forall i,
    after_newline tab_or_paren (String.concat nl (entries i msgs)) = true /\
    exists rest, String.concat nl (entries i msgs) = String "(" rest.
Proof.
  induction msgs as [|msg msgs IH]; [congruence|]. intros _ i.
  destruct (entry_lines i msg) as [He [r Hr]].
  destruct msgs as [|msg' msgs]; [cbn; eauto|].
  destruct (IH ltac:(discriminate) (i + 1)%Z) as [Hrest [r' Hr']].
  cbn [entries String.concat] in *. split.
  - apply after_newline_app; [exact He|].
    rewrite Hr' in *. cbn [nl append after_newline] in *. exact Hrest.
  - rewrite Hr. now eexists.
Qed.

Lemma rendering_lines (msgs : list string) :
  msgs <> [] -> after_newline tab_or_paren (rendering msgs) = true.
Proof.
  intros Hne. destruct (entries_lines msgs Hne 1%Z) as [Hrest [r Hr]].
  unfold rendering. apply after_newline_app; [apply itoa_one_line|].
  apply after_newline_app; [reflexivity|].
  rewrite Hr in *. cbn [nl append after_newline] in *. exact Hrest.
Qed.

(** X14: when every element renders, the default message of a non-empty list
    does not end with a newline, and each of its lines after the header
    starts with the parenthesis of an index or with the tab of a
    continuation line; a composite of two or more elements prints that
    text. *)
Theorem default_message_lines (errs : list error) (msgs : list string) :
  Forall2 (fun e msg => Error e = Ok msg) errs msgs ->
  errs <> [] ->
  exists out,
    DefaultFormatMessage Error errs = Ok out /\
    after_newline tab_or_paren out = true /\
    (2 <= List.length errs -> Error (multi errs) = Ok out).
Proof.
  intros H Hne.
  pose proof (DefaultFormatMessage_rendering errs msgs H) as HD.
  destruct H as [|e msg errs msgs He Hrest]; [congruence|].
  exists (rendering (msg :: msgs)). split; [exact HD|]. split.
  - apply rendering_lines. discriminate.
  - intros Hl. cbn [Error]. unfold multi_Error.
    destruct errs as [|e2 errs]; cbn in Hl; [lia | exact HD].
Qed.

Lemma default_message_lines_witness :
  exists out,
    DefaultFormatMessage Error
      [oops; other "*fmt.wrapError" 4 ("a" ++ nl ++ "(b") oops] = Ok out /\
    after_newline tab_or_paren out = true /\
    (2 <= List.length
            [oops; other "*fmt.wrapError" 4 ("a" ++ nl ++ "(b") oops] ->
     Error (multi [oops; other "*fmt.wrapError" 4 ("a" ++ nl ++ "(b") oops])
       = Ok out).
Proof.
  apply (default_message_lines
           [oops; other "*fmt.wrapError" 4 ("a" ++ nl ++ "(b") oops]
           ["oops"; ("a" ++ nl ++ "(b")%string]).
  - repeat constructor.
  - discriminate.
Defined.

(** ** What callers see of proper values *)

(** X15: on a proper value [All] gives only present non-composite errors, and
    [Len] tells the three kinds of value apart: 0 for nil only, 1 for a
    present non-composite error only, 2 or more for a composite only. *)
Theorem proper_shape (err : error) :
  proper err = true ->
  Forall (fun e => singular e = true) (All err) /\
  (Len err = 0%Z <-> err = nil_error) /\
  (Len err = 1%Z <-> singular err = true) /\
  ((2 <= Len err)%Z <-> is_multi err = true).
Proof.
  intros Hp. destruct err as [|t a s c|m].
  - repeat split; try constructor; cbn; try discriminate; try lia.
  - repeat split; try (now repeat constructor); cbn; try discriminate;
      try lia.
  - unfold proper in Hp. apply andb_true_iff in Hp as [Hl Hs].
    apply Nat.leb_le in Hl. rewrite All_multi.
    assert (HL : Len (multi m) = Z.of_nat (List.length m)) by reflexivity.
    rewrite HL. repeat split; try discriminate; try lia.
    apply Forall_forall. now apply forallb_forall.
Qed.

Lemma proper_shape_witness :
  Forall (fun e => singular e = true) (All (Append oops whoops)) /\
  (Len (Append oops whoops) = 0%Z <-> Append oops whoops = nil_error) /\
  (Len (Append oops whoops) = 1%Z <-> singular (Append oops whoops) = true) /\
  ((2 <= Len (Append oops whoops))%Z <->
   is_multi (Append oops whoops) = true).
Proof. apply (proper_shape (Append oops whoops)). reflexivity. Defined.

